(** * A shallow embedding of the tumalloc allocator (src/src/alloc.c)

    The allocator state is the process heap: a byte-addressed memory, the
    heap break (with the limit beyond which [sbrk] fails), and the two
    globals [HEAD] and [NEXT].  Pointers and [size_t] values are 64-bit
    unsigned integers represented by [Z]; [NULL] is [0].  Every C
    operation becomes a computation in a small state/crash monad: a
    dereference of a [NULL] struct pointer crashes ([Segv]), and a loop
    that runs out of its fuel reports [Diverge]. *)

From Stdlib Require Import ZArith Bool List Lia.
Open Scope Z_scope.

(** ** Machine arithmetic *)

Definition W64 : Z := 2 ^ 64.

(** [size_t] arithmetic wraps modulo 2^64. *)
Definition u64 (z : Z) : Z := z mod W64.

(** Conversion of a [size_t] to [int] (two's complement, 32 bits). *)
Definition to_int (z : Z) : Z :=
  let r := z mod 2 ^ 32 in if r <? 2 ^ 31 then r else r - 2 ^ 32.

(** Conversion of a [size_t] to the signed [intptr_t] that [sbrk] takes. *)
Definition to_i64 (z : Z) : Z :=
  let r := z mod W64 in if r <? 2 ^ 63 then r else r - W64.

(** Byte-offset pointer arithmetic on 64-bit addresses. *)
Definition padd (p d : Z) : Z := (p + d) mod W64.

(** ** Layout of the records of alloc.h *)

(** Modelled from the spec: alloc.h is not part of src/.  The spec's Block
    Header holds [payload_size] and a [validation_tag], the Free Node holds
    [size] and [next]; with 8-byte [size_t], [long] and pointers (LP64)
    both records are 16 bytes, [size] at offset 0 and the second field at
    offset 8. *)
Definition sizeof_header : Z := 16.
Definition sizeof_free_block : Z := 16.
Definition sizeof_ptr : Z := 8.
Definition off_size : Z := 0.
Definition off_next : Z := 8.

(** ** The machine state *)

Record state := mkState {
  mem  : Z -> Z;   (** byte at each address, in [0, 256) *)
  brk  : Z;        (** current program break *)
  lim  : Z;        (** highest break the OS grants *)
  HEAD : Z;        (** [static free_block *HEAD] *)
  NEXT : Z         (** [static free_block *NEXT] *)
}.

Definition set_mem (st : state) (m : Z -> Z) : state :=
  mkState m (brk st) (lim st) (HEAD st) (NEXT st).
Definition set_brk_st (st : state) (b : Z) : state :=
  mkState (mem st) b (lim st) (HEAD st) (NEXT st).
Definition set_HEAD_st (st : state) (h : Z) : state :=
  mkState (mem st) (brk st) (lim st) h (NEXT st).
Definition set_NEXT_st (st : state) (n : Z) : state :=
  mkState (mem st) (brk st) (lim st) (HEAD st) n.

(** Little-endian 8-byte words in the byte memory. *)
Fixpoint load_bytes (m : Z -> Z) (a : Z) (n : nat) : Z :=
  match n with
  | O => 0
  | S n' => m a + 256 * load_bytes m (a + 1) n'
  end.

Fixpoint store_bytes (m : Z -> Z) (a v : Z) (n : nat) : Z -> Z :=
  match n with
  | O => m
  | S n' =>
      let m' := store_bytes m (a + 1) (v / 256) n' in
      fun x => if x =? a then v mod 256 else m' x
  end.

Definition load64 (m : Z -> Z) (a : Z) : Z := load_bytes m a 8.
Definition store64 (m : Z -> Z) (a v : Z) : Z -> Z := store_bytes m a (u64 v) 8.

(** [memset(p, c, n)] and [memcpy(d, s, n)] on the byte memory. *)
Definition memset_mem (m : Z -> Z) (p c n : Z) : Z -> Z :=
  fun x => if (p <=? x) && (x <? p + n) then c mod 256 else m x.

Definition memcpy_mem (m : Z -> Z) (d s n : Z) : Z -> Z :=
  fun x => if (d <=? x) && (x <? d + n) then m (s + (x - d)) else m x.

(** ** The state/crash monad *)

Inductive fault := Segv | Diverge.

Inductive result (A : Type) :=
| Ok : A -> state -> result A
| Crash : fault -> result A.
Arguments Ok {A} _ _.
Arguments Crash {A} _.

Definition M (A : Type) := state -> result A.

Definition ret {A} (a : A) : M A := fun st => Ok a st.
Definition bind {A B} (m : M A) (k : A -> M B) : M B :=
  fun st => match m st with
            | Ok a st' => k a st'
            | Crash f => Crash f
            end.
Definition crash {A} (f : fault) : M A := fun _ => Crash f.

Notation "x <- m ;; k" := (bind m (fun x => k))
  (at level 61, m at next level, right associativity).
Notation "m ;;; k" := (bind m (fun _ => k))
  (at level 61, right associativity).

Definition get_HEAD : M Z := fun st => Ok (HEAD st) st.
Definition get_NEXT : M Z := fun st => Ok (NEXT st) st.
Definition set_HEAD (h : Z) : M unit := fun st => Ok tt (set_HEAD_st st h).
Definition set_NEXT (n : Z) : M unit := fun st => Ok tt (set_NEXT_st st n).

(** Field access through a struct pointer: [p->size] and [p->next]. *)
Definition load_field (p off : Z) : M Z :=
  fun st => if p =? 0 then Crash Segv else Ok (load64 (mem st) (p + off)) st.
Definition store_field (p off v : Z) : M unit :=
  fun st => if p =? 0 then Crash Segv
            else Ok tt (set_mem st (store64 (mem st) (p + off) v)).

Definition get_size (p : Z) : M Z := load_field p off_size.
Definition get_next (p : Z) : M Z := load_field p off_next.
Definition set_size (p v : Z) : M unit := store_field p off_size v.
Definition set_next (p v : Z) : M unit := store_field p off_next v.

(** [memset] and [memcpy] crash on a [NULL] argument. *)
Definition memset (p c n : Z) : M unit :=
  fun st => if (p =? 0) && (0 <? n) then Crash Segv
            else Ok tt (set_mem st (memset_mem (mem st) p c n)).
Definition memcpy (d s n : Z) : M unit :=
  fun st => if ((d =? 0) || (s =? 0)) && (0 <? n) then Crash Segv
            else Ok tt (set_mem st (memcpy_mem (mem st) d s n)).

(** [sbrk(inc)]: returns the old break and moves it by [inc], or returns
    [(void * )-1] when the OS refuses the new break. *)
Definition sbrk_fail : Z := W64 - 1.

Definition sbrk (inc : Z) : M Z :=
  fun st =>
    let nb := brk st + inc in
    if (nb <? 0) || ((0 <? inc) && (lim st <? nb)) then Ok sbrk_fail st
    else Ok (brk st) (set_brk_st st nb).

(** ** The allocator, function by function *)

(** [split(block, size)] ([size] is an [int]). *)
Definition split (block size : Z) : M Z :=
  bs <- get_size block;;
  if bs <? u64 (size + sizeof_free_block) then ret 0
  else
    let new_block := padd (padd block size) sizeof_free_block in
    bs' <- get_size block;;
    set_size new_block (u64 (bs' - size - sizeof_free_block));;;
    bn <- get_next block;;
    set_next new_block bn;;;
    h <- get_HEAD;;
    (if block =? h then set_HEAD new_block else ret tt);;;
    set_size block (u64 size);;;
    set_next block new_block;;;
    set_NEXT new_block;;;
    ret block.

(** End of the byte range a free node describes:
    [(char * )curr + curr->size + sizeof(free_block)]. *)
Definition node_end (p sz : Z) : Z := padd (padd p sz) sizeof_free_block.

(** The loop of [find_prev], from [curr]. *)
Fixpoint find_prev_loop (fuel : nat) (block curr : Z) : M Z :=
  match fuel with
  | O => crash Diverge
  | S f =>
      if curr =? 0 then ret 0
      else
        cs <- get_size curr;;
        if node_end curr cs =? block then ret curr
        else
          cn <- get_next curr;;
          find_prev_loop f block cn
  end.

Definition find_prev (fuel : nat) (block : Z) : M Z :=
  h <- get_HEAD;; find_prev_loop fuel block h.

(** The loop of [find_next], looking for a node at [block_end]. *)
Fixpoint find_next_loop (fuel : nat) (block_end curr : Z) : M Z :=
  match fuel with
  | O => crash Diverge
  | S f =>
      if curr =? 0 then ret 0
      else if curr =? block_end then ret curr
      else
        cn <- get_next curr;;
        find_next_loop f block_end cn
  end.

Definition find_next (fuel : nat) (block : Z) : M Z :=
  bs <- get_size block;;
  h <- get_HEAD;;
  find_next_loop fuel (node_end block bs) h.

(** [remove_free_block]: the loop after the head test. *)
Fixpoint remove_loop (fuel : nat) (block curr : Z) : M unit :=
  match fuel with
  | O => crash Diverge
  | S f =>
      if curr =? 0 then ret tt
      else
        cn <- get_next curr;;
        if cn =? block then
          bn <- get_next block;;
          set_next curr bn
        else
          cn' <- get_next curr;;
          remove_loop f block cn'
  end.

Definition remove_free_block (fuel : nat) (block : Z) : M unit :=
  curr <- get_HEAD;;
  if curr =? block then
    bn <- get_next block;;
    set_HEAD bn
  else remove_loop fuel block curr.

(** [coalesce(block)]. *)
Definition coalesce (fuel : nat) (block : Z) : M Z :=
  if block =? 0 then ret 0
  else
    prev <- find_prev fuel block;;
    next <- find_next fuel block;;
    block' <-
      (if prev =? 0 then ret block
       else
         ps <- get_size prev;;
         if node_end prev ps =? block then
           bs <- get_size block;;
           set_size prev (u64 (ps + u64 (bs + sizeof_free_block)));;;
           pn <- get_next prev;;
           (if pn =? block then
              bn <- get_next block;;
              set_next prev bn
            else ret tt);;;
           ret prev
         else ret block);;
    (if next =? 0 then ret tt
     else
       bs <- get_size block';;
       if node_end block' bs =? next then
         ns <- get_size next;;
         set_size block' (u64 (bs + u64 (ns + sizeof_free_block)));;;
         nn <- get_next next;;
         set_next block' nn
       else ret tt);;;
    ret block'.

(** [do_alloc(size)]: the [printf] on failure is not modelled. *)
Definition do_alloc (size : Z) : M Z :=
  ptr <- sbrk 0;;
  let addr_end := Z.land ptr 15 in
  let align := 16 - addr_end in
  block_ptr <- sbrk (to_i64 (u64 (size + align)));;
  if block_ptr =? sbrk_fail then ret 0 else ret block_ptr.

(** [header *head + sizeof(header)] and [free_block *head + sizeof(header)]
    advance by [sizeof(header)] records, i.e. by 16 * 16 bytes. *)
Definition hdr_payload (head : Z) : Z := padd head (sizeof_header * sizeof_header).
Definition fb_payload (head : Z) : Z := padd head (sizeof_free_block * sizeof_header).

(** The heap-extension path of [tumalloc], shared by its first and second
    cases (which also set [NEXT = HEAD]) and by its fallback. *)
Definition extend (size : Z) : M Z :=
  head <- do_alloc (u64 (size + sizeof_header));;
  let block_ptr := hdr_payload head in
  set_size head size;;;
  ret block_ptr.

Definition extend_reset (size : Z) : M Z :=
  head <- do_alloc (u64 (size + sizeof_header));;
  h <- get_HEAD;;
  set_NEXT h;;;
  let block_ptr := hdr_payload head in
  set_size head size;;;
  ret block_ptr.

(** The next-fit loop of [tumalloc]; [None] means the loop ended without a
    match and the fallback runs. *)
Fixpoint nextfit_loop (fuel : nat) (size start curr : Z) : M (option Z) :=
  match fuel with
  | O => crash Diverge
  | S f =>
      cn <- get_next curr;;
      if (cn =? 0) || (cn =? start) then ret None
      else
        prev <- find_prev (S f) curr;;
        cs <- get_size curr;;
        if size =? cs then
          cn1 <- get_next curr;;
          set_next prev cn1;;;
          cn2 <- get_next curr;;
          set_NEXT cn2;;;
          ret (Some curr)
        else if size <? cs then
          head <- split curr (to_int (u64 (size + sizeof_header)));;
          remove_free_block (S f) head;;;
          let block_ptr := fb_payload head in
          set_size head size;;;
          ret (Some block_ptr)
        else
          cn1 <- get_next curr;;
          (if cn1 =? 0 then h <- get_HEAD;; set_next curr h else ret tt);;;
          cn2 <- get_next curr;;
          nextfit_loop f size start cn2
  end.

(** [tumalloc(size)]. *)
Definition tumalloc (fuel : nat) (size : Z) : M Z :=
  h <- get_HEAD;;
  if h =? 0 then extend_reset size
  else
    hn <- get_next h;;
    if hn =? 0 then
      hs <- get_size h;;
      if hs <? size then extend_reset size
      else if size =? hs then
        set_HEAD 0;;;
        set_NEXT 0;;;
        ret h
      else
        head <- split h (to_int (u64 (size + sizeof_header)));;
        let new_block := fb_payload head in
        remove_free_block fuel head;;;
        h2 <- get_HEAD;;
        set_NEXT h2;;;
        set_size head size;;;
        ret new_block
    else
      nx <- get_NEXT;;
      (if nx =? 0 then h1 <- get_HEAD;; set_NEXT h1 else ret tt);;;
      start <- get_NEXT;;
      r <- nextfit_loop fuel size start start;;
      match r with
      | Some p => ret p
      | None => extend size
      end.

(** [tucalloc(num, size)]. *)
Definition tucalloc (fuel : nat) (num size : Z) : M Z :=
  let n := u64 (num * size) in
  block_ptr <- tumalloc fuel n;;
  memset block_ptr 0 n;;;
  ret block_ptr.

(** The insertion loop of [tufree]; [cna] is [curr_next_addr]. *)
Fixpoint insert_loop (fuel : nat) (new curr cna : Z) : M Z :=
  match fuel with
  | O => crash Diverge
  | S f =>
      cn <- get_next curr;;
      if negb (cn =? 0) && (cna <? new) then
        c' <- get_next curr;;
        insert_loop f new c' c'
      else ret curr
  end.

(** [tufree(ptr)]: [ptr - sizeof(header)] is byte arithmetic on [void *];
    [sizeof(ptr + sizeof(header))] is [sizeof(void * )]. *)
Definition tufree (fuel : nat) (ptr : Z) : M unit :=
  let new := padd ptr (- sizeof_header) in
  set_size new sizeof_ptr;;;
  set_next new 0;;;
  h <- get_HEAD;;
  (if h =? 0 then set_HEAD new
   else
     hn <- get_next h;;
     if hn =? 0 then set_next h new
     else
       cna <- get_next h;;
       curr <- insert_loop fuel new h cna;;
       cn <- get_next curr;;
       set_next new cn;;;
       set_next curr new);;;
  nn <- get_next new;;
  (if new =? nn then set_next new 0 else ret tt);;;
  _ <- coalesce fuel new;;
  ret tt.

(** [turealloc(ptr, new_size)]. *)
Definition turealloc (fuel : nat) (ptr new_size : Z) : M Z :=
  tufree fuel ptr;;;
  head <- tumalloc fuel (u64 (new_size + sizeof_header));;
  old_size <- get_size head;;
  let block_ptr := ptr in
  (if new_size <=? old_size then memcpy block_ptr ptr new_size
   else memcpy block_ptr ptr old_size);;;
  ret block_ptr.

(** ** Client scenarios

    Runs of the allocator from a fresh process: nothing allocated yet, the
    break 16-byte aligned at 4096, and 1 MiB of address space the OS will
    grant.  A client writing its own data into a payload is a [memset]. *)

Definition empty_heap (b l : Z) : state := mkState (fun _ => 0) b l 0 0.
Definition st0 : state := empty_heap 4096 1048576.
Definition fuel0 : nat := 100.

(** allocate 100 bytes, fill them with 0xAB, resize to 200 bytes. *)
Definition resize_run : M (Z * Z) :=
  p <- tumalloc fuel0 100;;
  memset p 171 100;;;
  q <- turealloc fuel0 p 200;;
  ret (p, q).

(** allocate 100 bytes and release them. *)
Definition alloc_release_run : M Z :=
  p <- tumalloc fuel0 100;;
  tufree fuel0 p;;;
  ret p.

(** allocate 100 bytes, write 0xAB to its first byte, release it, then
    zero-allocate (2^61 + 1) elements of 8 bytes. *)
Definition calloc_overflow_run : M (Z * Z) :=
  p <- tumalloc fuel0 100;;
  memset p 171 1;;;
  tufree fuel0 p;;;
  q <- tucalloc fuel0 (2 ^ 61 + 1) 8;;
  ret (p, q).

(** a release leaves one free node of 8 bytes; a 4-byte request fits in it
    but cannot be split off it. *)
Definition nosplit_run : M Z :=
  p <- tumalloc fuel0 100;;
  tufree fuel0 p;;;
  tumalloc fuel0 4.

(** A well-formed two-node Free List: a node of 8 bytes at 4096 followed by
    a node of 100 bytes at 8192, [NEXT] on the first node. *)
Definition two_node_mem : Z -> Z :=
  store64 (store64 (store64 (store64 (fun _ => 0) 4096 8) 4104 8192) 8192 100) 8200 0.
Definition two_node_heap : state := mkState two_node_mem 16384 1048576 4096 4096.

(** A sequence of allocations and releases after which two Free List nodes
    are address-adjacent; the result is [HEAD] and its two successors. *)
Definition adjacency_run : M (Z * Z * Z) :=
  a <- tumalloc fuel0 16;;
  b <- tumalloc fuel0 64;;
  tufree fuel0 b;;;
  c <- tumalloc fuel0 64;;
  tufree fuel0 a;;;
  _ <- tumalloc fuel0 32;;
  tufree fuel0 c;;;
  h <- get_HEAD;;
  n1 <- get_next h;;
  n2 <- get_next n1;;
  ret (h, n1, n2).

(** allocate two blocks of 100 bytes and release the first. *)
Definition two_blocks_run : M (Z * Z) :=
  a <- tumalloc fuel0 100;;
  b <- tumalloc fuel0 100;;
  tufree fuel0 a;;;
  ret (a, b).

(** ** Free List nodes and the bytes they own

    [R] lists the addresses of Free List nodes.  A pointer is [listed] when
    it is [NULL] or one of them; [in_hdr R a] says that byte [a] belongs to
    the 16-byte record ([size], [next]) of a node of [R].  [frame_inv R m0]
    says that [HEAD] and every node's [next] stay inside [R], and that
    every byte outside those records still holds its value in [m0]. *)

Definition listed (R : list Z) (n : Z) : Prop := n = 0 \/ In n R.

Definition in_hdr (R : list Z) (a : Z) : Prop :=
  exists n, In n R /\ n <= a < n + sizeof_free_block.

Definition frame_inv (R : list Z) (m0 : Z -> Z) (st : state) : Prop :=
  listed R (HEAD st)
  /\ (forall n, In n R -> listed R (load64 (mem st) (n + off_next)))
  /\ (forall a, ~ in_hdr R a -> mem st a = m0 a).

(** ** The Free List as a list of nodes

    [path m h l] says that following [next] links in memory [m] from [h]
    visits exactly the nodes [l], in order, and ends in [NULL].
    [separate_nodes l] says that the nodes of [l] are non-null and their
    16-byte records fit in the address space and are pairwise disjoint.
    [first_end m block l] is the first node of [l] whose end (its address
    plus its size plus [sizeof(free_block)]) is [block], or [NULL]: the
    node [find_prev] looks for. *)

Inductive path (m : Z -> Z) : Z -> list Z -> Prop :=
| path_nil : path m 0 nil
| path_cons n n' l :
    n <> 0 -> load64 m (n + off_next) = n' -> path m n' l -> path m n (n :: l).

Fixpoint path_check (m : Z -> Z) (h : Z) (l : list Z) : bool :=
  match l with
  | nil => h =? 0
  | n :: l' => (h =? n) && negb (n =? 0) && path_check m (load64 m (n + off_next)) l'
  end.

Fixpoint separate_nodes (l : list Z) : Prop :=
  match l with
  | nil => True
  | n :: l' =>
      0 < n /\ n + sizeof_free_block <= W64
      /\ Forall (fun n' => n + sizeof_free_block <= n' \/ n' + sizeof_free_block <= n) l'
      /\ separate_nodes l'
  end.

Fixpoint first_end (m : Z -> Z) (block : Z) (l : list Z) : Z :=
  match l with
  | nil => 0
  | n :: l' =>
      if node_end n (load64 m (n + off_size)) =? block then n
      else first_end m block l'
  end.

(** ** Further heaps

    A one-node Free List: a node of 100 bytes at 4096 with a [NULL] next
    link.  Three address-adjacent nodes at 4096 (16 bytes), 4128 (16 bytes)
    and 4160 (32 bytes), linked in address order.  The state after
    allocating 100 bytes on a fresh process. *)

Definition one_node_mem : Z -> Z := store64 (store64 (fun _ => 0) 4096 100) 4104 0.
Definition one_node_heap : state := mkState one_node_mem 16384 1048576 4096 4096.

Definition three_node_mem : Z -> Z :=
  store64 (store64 (store64 (store64 (store64 (store64 (fun _ => 0)
    4096 16) 4104 4128) 4128 16) 4136 4160) 4160 32) 4168 0.
Definition three_node_heap : state := mkState three_node_mem 16384 1048576 4096 4096.

Definition after_alloc100 : state :=
  match tumalloc fuel0 100 st0 with Ok _ st => st | Crash _ => st0 end.

(** ** Reading back the byte memory *)

Lemma store_bytes_other m a v n x :
  x < a \/ a + Z.of_nat n <= x -> store_bytes m a v n x = m x.
Proof.
  revert a v; induction n as [|n IH]; intros a v Hx; simpl; [reflexivity|].
  destruct (Z.eqb_spec x a); [lia|].
  apply IH; lia.
Qed.

Lemma load_bytes_ext m m' a n :
  (forall x, a <= x < a + Z.of_nat n -> m x = m' x) ->
  load_bytes m a n = load_bytes m' a n.
Proof.
  revert a; induction n as [|n IH]; intros a H; cbn [load_bytes]; [reflexivity|].
  rewrite H by lia. f_equal. f_equal. apply IH. intros x Hx; apply H; lia.
Qed.

Lemma load_store_bytes_same m a v n :
  load_bytes (store_bytes m a v n) a n = v mod 256 ^ Z.of_nat n.
Proof.
  revert a v; induction n as [|n IH]; intros a v; cbn [load_bytes store_bytes].
  - rewrite Z.mod_1_r. reflexivity.
  - rewrite Z.eqb_refl.
    rewrite (load_bytes_ext _ (store_bytes m (a + 1) (v / 256) n)).
    + rewrite IH. rewrite Nat2Z.inj_succ, Z.pow_succ_r by lia.
      rewrite Z.rem_mul_r by lia. reflexivity.
    + intros x Hx. destruct (Z.eqb_spec x a); [lia | reflexivity].
Qed.

Lemma load_store64_same m a v : load64 (store64 m a v) a = u64 v.
Proof.
  unfold load64, store64, u64. rewrite load_store_bytes_same.
  apply Z.mod_small. pose proof (Z.mod_pos_bound v W64). unfold W64 in *. simpl in *. lia.
Qed.

Lemma store64_other m a v x : x < a \/ a + 8 <= x -> store64 m a v x = m x.
Proof. intros H. unfold store64. apply store_bytes_other. simpl. lia. Qed.

Lemma load64_store64_other m a v b :
  b + 8 <= a \/ a + 8 <= b -> load64 (store64 m a v) b = load64 m b.
Proof.
  intros H. unfold load64. apply load_bytes_ext. intros x Hx.
  apply store64_other. simpl in Hx. lia.
Qed.

(** ** Runs of the allocator on the scenarios *)

(** C1 (resize): [turealloc] returns the pointer it was given, whose block
    it has just released: after [resize(p, 200)] the result is [p] itself,
    the Free List head is [p]'s own node with a recorded size of 8, so the
    region handed back is free, not an allocation of 200 bytes. *)
Theorem resize_returns_released_block :
  match resize_run st0 with
  | Ok (p, q) st => q = p /\ HEAD st = padd p (- sizeof_header)
                    /\ load64 (mem st) (HEAD st) = 8
  | Crash _ => False
  end.
Proof. vm_compute. repeat split; reflexivity. Qed.

(** [turealloc] always returns its argument when it returns at all. *)
Lemma turealloc_returns_argument fuel ptr n st q st' :
  turealloc fuel ptr n st = Ok q st' -> q = ptr.
Proof.
  unfold turealloc, bind, ret.
  destruct (tufree fuel ptr st) as [[] st1|]; [|discriminate].
  destruct (tumalloc fuel (u64 (n + sizeof_header)) st1) as [h st2|]; [|discriminate].
  destruct (get_size h st2) as [o st3|]; [|discriminate].
  destruct (_ <=? _); [destruct (memcpy ptr ptr n st3)|destruct (memcpy ptr ptr o st3)];
    congruence.
Qed.

(** C2 (release records the allocation size): allocating 100 bytes and
    releasing them leaves a Free Node whose size field is 8, the size of a
    pointer, not 100. *)
Theorem release_records_pointer_size :
  match alloc_release_run st0 with
  | Ok p st => HEAD st = padd p (- sizeof_header)
               /\ load64 (mem st) (HEAD st) = sizeof_ptr
               /\ load64 (mem st) (HEAD st) <> 100
  | Crash _ => False
  end.
Proof. vm_compute. repeat split; try reflexivity; discriminate. Qed.

(** C3 (header position): the block returned by the first allocation has
    its header, holding the payload size 100, 256 bytes before the returned
    pointer; the 16 bytes before the pointer do not hold it. *)
Theorem header_not_adjacent_to_payload :
  match tumalloc fuel0 100 st0 with
  | Ok p st => p = 4352
               /\ load64 (mem st) (p - sizeof_header * sizeof_header) = 100
               /\ load64 (mem st) (p - sizeof_header) <> 100
  | Crash _ => False
  end.
Proof. vm_compute. repeat split; try reflexivity; discriminate. Qed.

(** C4 (heap extension failure): when the OS refuses to move the break,
    [tumalloc] dereferences the [NULL] that [do_alloc] returns and crashes;
    no OutOfMemory value reaches the caller. *)
Theorem oom_crashes_allocate :
  tumalloc fuel0 100 (empty_heap 4096 4096) = Crash Segv.
Proof. vm_compute. reflexivity. Qed.

(** C5 counterexample: zero-allocating (2^61 + 1) * 8 bytes requests
    8 bytes (the [size_t] product wraps), and byte 16 of the returned region
    still holds the client's 0xAB. *)
Theorem calloc_product_wraps :
  match calloc_overflow_run st0 with
  | Ok (p, q) st => 16 < (2 ^ 61 + 1) * 8 /\ mem st (q + 16) = 171
  | Crash _ => False
  end.
Proof. vm_compute. split; reflexivity. Qed.

(** C6 (block too small to split): a 4-byte request meets the single free
    node of 8 bytes; [split] returns [NULL] and [tumalloc] crashes instead
    of handing out the whole node. *)
Theorem unsplittable_node_crashes : nosplit_run st0 = Crash Segv.
Proof. vm_compute. reflexivity. Qed.

(** C7 (next-fit scan): with the cursor on the first of two nodes, a
    50-byte request skips the second node although its 100 bytes are at
    least 50 + 16, and is served by extending the heap. *)
Theorem nextfit_skips_last_node :
  match tumalloc fuel0 50 two_node_heap with
  | Ok p st => p = hdr_payload (brk two_node_heap)
               /\ brk two_node_heap < brk st
               /\ HEAD st = 4096 /\ load64 (mem st) 4104 = 8192
               /\ load64 (mem st) 8192 = 100
  | Crash _ => False
  end.
Proof. vm_compute. repeat split; reflexivity. Qed.

(** C8 (coalescing completeness): after the last release of
    [adjacency_run] the Free List holds a node of 32 bytes at 4336 that
    ends exactly where the node at 4384 begins. *)
Theorem release_leaves_adjacent_nodes :
  match adjacency_run st0 with
  | Ok (h, n1, _) st => h <> n1 /\ node_end n1 (load64 (mem st) n1) = h
  | Crash _ => False
  end.
Proof. vm_compute. split; [discriminate | reflexivity]. Qed.

(** C9 counterexample: from an empty Free List, allocating 100 bytes and
    releasing them leaves a non-empty Free List. *)
Theorem alloc_release_not_identity :
  HEAD st0 = 0 /\
  match alloc_release_run st0 with
  | Ok _ st => HEAD st <> 0
  | Crash _ => False
  end.
Proof. vm_compute. split; [reflexivity | discriminate]. Qed.

(** C10 counterexample: releasing the second of two blocks links it behind
    the first block's node, writing a byte outside the header-sized prefix
    of the released pointer. *)
Theorem release_writes_predecessor_link :
  match two_blocks_run st0 with
  | Ok (a, b) st =>
      match tufree fuel0 b st with
      | Ok _ st' => ~ (b - sizeof_header <= 4344 < b)
                    /\ mem st' 4344 <> mem st 4344
      | Crash _ => False
      end
  | Crash _ => False
  end.
Proof. vm_compute. split; [intros [H _]; apply H; reflexivity | discriminate]. Qed.

(** ** Inverting successful runs *)

Lemma bind_Ok {A B} (m : M A) (k : A -> M B) st b st'' :
  bind m k st = Ok b st'' -> exists a st', m st = Ok a st' /\ k a st' = Ok b st''.
Proof.
  unfold bind. destruct (m st) as [a st'|f]; [|discriminate].
  intros H; exists a, st'; split; [reflexivity | exact H].
Qed.

Lemma ret_Ok {A} (a : A) st b st' : ret a st = Ok b st' -> b = a /\ st' = st.
Proof. unfold ret; intros H; inversion H; split; reflexivity. Qed.

Lemma crash_Ok {A} f st (b : A) st' : crash f st = Ok b st' -> False.
Proof. unfold crash; discriminate. Qed.

Lemma get_HEAD_Ok st h st' : get_HEAD st = Ok h st' -> h = HEAD st /\ st' = st.
Proof. unfold get_HEAD; intros H; inversion H; split; reflexivity. Qed.

Lemma get_NEXT_Ok st n st' : get_NEXT st = Ok n st' -> n = NEXT st /\ st' = st.
Proof. unfold get_NEXT; intros H; inversion H; split; reflexivity. Qed.

Lemma set_HEAD_Ok h st u st' : set_HEAD h st = Ok u st' -> st' = set_HEAD_st st h.
Proof. unfold set_HEAD; intros H; inversion H; reflexivity. Qed.

Lemma set_NEXT_Ok n st u st' : set_NEXT n st = Ok u st' -> st' = set_NEXT_st st n.
Proof. unfold set_NEXT; intros H; inversion H; reflexivity. Qed.

Lemma load_field_Ok p off st v st' :
  load_field p off st = Ok v st' ->
  p <> 0 /\ v = load64 (mem st) (p + off) /\ st' = st.
Proof.
  unfold load_field. destruct (Z.eqb_spec p 0); [discriminate|].
  intros H; inversion H; repeat split; auto.
Qed.

Lemma store_field_Ok p off v st u st' :
  store_field p off v st = Ok u st' ->
  p <> 0 /\ st' = set_mem st (store64 (mem st) (p + off) v).
Proof.
  unfold store_field. destruct (Z.eqb_spec p 0); [discriminate|].
  intros H; inversion H; split; auto.
Qed.

Ltac case_if H :=
  match type of H with
  | context [if ?c then _ else _] => destruct c
  end.

Ltac binv H :=
  let a := fresh "a" in let s := fresh "s" in let Hm := fresh "Hm" in
  apply bind_Ok in H; destruct H as (a & s & Hm & H); cbv beta in H.

(** ** Calloc *)

(** C5 (amended): [tucalloc(n, k)] calls [tumalloc] on the [size_t]
    product [n * k mod 2^64]; when that allocation fails, [tucalloc] fails in
    the same way, and when it returns a non-null pointer, [tucalloc] returns
    the same pointer with the first [n * k mod 2^64] bytes reading zero. *)
Theorem tucalloc_zero_fill fuel num size st :
  let n := u64 (num * size) in
  match tumalloc fuel n st with
  | Crash e => tucalloc fuel num size st = Crash e
  | Ok p st1 =>
      p <> 0 ->
      exists st', tucalloc fuel num size st = Ok p st'
                  /\ forall i, 0 <= i < n -> mem st' (p + i) = 0
  end.
Proof.
  intros n. unfold tucalloc, bind. fold n.
  destruct (tumalloc fuel n st) as [p st1|e]; [|reflexivity].
  intros Hp. unfold memset.
  replace ((p =? 0) && (0 <? n)) with false
    by (symmetry; apply andb_false_iff; left; apply Z.eqb_neq; exact Hp).
  eexists; split; [reflexivity|].
  intros i Hi. simpl. unfold memset_mem.
  replace ((p <=? p + i) && (p + i <? p + n)) with true
    by (symmetry; apply andb_true_iff; split; [apply Z.leb_le | apply Z.ltb_lt]; lia).
  reflexivity.
Qed.

(** ** Allocation from an empty Free List, release into an empty Free List *)

Lemma sbrk_Ok inc st v st' :
  sbrk inc st = Ok v st' -> st' = st \/ st' = set_brk_st st (brk st + inc).
Proof.
  unfold sbrk. destruct (_ || _); intros H; inversion H; auto.
Qed.

Lemma do_alloc_HEAD size st v st' :
  do_alloc size st = Ok v st' -> HEAD st' = HEAD st /\ mem st' = mem st.
Proof.
  unfold do_alloc. intros H.
  binv H. apply sbrk_Ok in Hm.
  binv H. apply sbrk_Ok in Hm0.
  destruct (_ =? _); apply ret_Ok in H; destruct H as [_ ->];
    destruct Hm as [-> | ->]; destruct Hm0 as [-> | ->]; split; reflexivity.
Qed.

(** An allocation from an empty Free List leaves it empty. *)
Lemma tumalloc_from_empty fuel s st p st1 :
  HEAD st = 0 -> tumalloc fuel s st = Ok p st1 -> HEAD st1 = 0.
Proof.
  intros H0 H. unfold tumalloc in H.
  binv H. apply get_HEAD_Ok in Hm as [-> ->].
  rewrite H0 in H. cbv beta iota in H.
  unfold extend_reset in H.
  binv H. apply do_alloc_HEAD in Hm as [Hh _].
  binv H. apply get_HEAD_Ok in Hm as [-> ->].
  binv H. apply set_NEXT_Ok in Hm. subst.
  binv H. apply store_field_Ok in Hm as [_ ->].
  apply ret_Ok in H as [_ ->]. simpl. rewrite Hh. exact H0.
Qed.

Lemma node_end_8_neq n : 0 <= n < W64 -> node_end n 8 <> n.
Proof.
  intros Hn. unfold node_end, padd, sizeof_free_block.
  rewrite Z.add_mod_idemp_l by (unfold W64; lia).
  pose proof (Z.div_mod (n + 8 + 16) W64 ltac:(unfold W64; lia)) as Hd.
  pose proof (Z.mod_pos_bound (n + 8 + 16) W64 ltac:(unfold W64; lia)).
  intros He. rewrite He in Hd.
  assert (W64 * ((n + 8 + 16) / W64) = 24) by lia.
  unfold W64 in *. lia.
Qed.

Lemma padd_range p d : 0 <= padd p d < W64.
Proof. unfold padd. apply Z.mod_pos_bound. unfold W64; lia. Qed.

(** A release into an empty Free List makes the released block's node,
    at [ptr - sizeof(header)], the only node, with size field
    [sizeof(void * )]. *)
Lemma tufree_into_empty fuel p st st' :
  HEAD st = 0 -> tufree fuel p st = Ok tt st' ->
  let new := padd p (- sizeof_header) in
  HEAD st' = new /\ new <> 0
  /\ load64 (mem st') (new + off_next) = 0
  /\ load64 (mem st') (new + off_size) = sizeof_ptr.
Proof.
  intros H0 H new. unfold tufree in H. fold new in H.
  binv H. apply store_field_Ok in Hm as [Hnz ->].
  binv H. apply store_field_Ok in Hm as [_ ->].
  binv H. apply get_HEAD_Ok in Hm as [-> ->]. simpl in H. rewrite H0, Z.eqb_refl in H.
  cbv beta iota in H.
  binv H. apply set_HEAD_Ok in Hm. subst.
  set (m2 := store64 (store64 (mem st) (new + off_size) sizeof_ptr) (new + off_next) 0) in *.
  assert (Hnext : load64 m2 (new + off_next) = 0)
    by (unfold m2; rewrite load_store64_same; reflexivity).
  assert (Hsize : load64 m2 (new + off_size) = sizeof_ptr).
  { unfold m2. rewrite load64_store64_other by (unfold off_next, off_size; lia).
    rewrite load_store64_same. reflexivity. }
  binv H. apply load_field_Ok in Hm as [_ [-> ->]]. simpl in H.
  rewrite Hnext in H.
  replace (new =? 0) with false in H by (symmetry; apply Z.eqb_neq; exact Hnz).
  cbv beta iota in H.
  binv H. apply ret_Ok in Hm as [_ ->].
  binv H. apply ret_Ok in H as [_ ->].
  (* [coalesce] finds no neighbour of the lone node and changes nothing *)
  unfold coalesce in Hm.
  replace (new =? 0) with false in Hm by (symmetry; apply Z.eqb_neq; exact Hnz).
  binv Hm. unfold find_prev in Hm0.
  binv Hm0. apply get_HEAD_Ok in Hm1 as [-> ->]. simpl in Hm0.
  destruct fuel as [|f]; [cbn [find_prev_loop find_next_loop crash] in Hm0; discriminate|].
  cbn [find_prev_loop] in Hm0.
  replace (new =? 0) with false in Hm0 by (symmetry; apply Z.eqb_neq; exact Hnz).
  binv Hm0. apply load_field_Ok in Hm1 as [_ [-> ->]]. simpl in Hm0.
  rewrite Hsize in Hm0. unfold sizeof_ptr in Hm0.
  replace (node_end new 8 =? new) with false in Hm0
    by (symmetry; apply Z.eqb_neq; apply node_end_8_neq; apply padd_range).
  binv Hm0. apply load_field_Ok in Hm1 as [_ [-> ->]]. simpl in Hm0.
  rewrite Hnext in Hm0.
  destruct f as [|f]; [cbn [find_prev_loop find_next_loop crash] in Hm0; discriminate|].
  cbn [find_prev_loop] in Hm0. apply ret_Ok in Hm0 as [-> ->].
  binv Hm. unfold find_next in Hm0.
  binv Hm0. apply load_field_Ok in Hm1 as [_ [-> ->]].
  binv Hm0. apply get_HEAD_Ok in Hm1 as [-> ->]. simpl in Hm0.
  rewrite Hsize in Hm0.
  cbn [find_next_loop] in Hm0.
  replace (new =? 0) with false in Hm0 by (symmetry; apply Z.eqb_neq; exact Hnz).
  replace (new =? node_end new sizeof_ptr) with false in Hm0
    by (symmetry; apply Z.eqb_neq; intros He; symmetry in He;
        revert He; apply node_end_8_neq; apply padd_range).
  binv Hm0. apply load_field_Ok in Hm1 as [_ [-> ->]]. simpl in Hm0.
  rewrite Hnext, Z.eqb_refl in Hm0. cbv beta iota in Hm0.
  apply ret_Ok in Hm0 as [-> ->].
  binv Hm. rewrite Z.eqb_refl in Hm0. apply ret_Ok in Hm0 as [-> ->].
  rewrite Z.eqb_refl in Hm. cbv beta iota in Hm.
  binv Hm. apply ret_Ok in Hm0 as [_ ->].
  apply ret_Ok in Hm as [_ ->].
  simpl. repeat split; auto.
Qed.

(** C9 (amended): from an empty Free List, [allocate(s)] followed by the
    release of the returned pointer does not restore the empty Free List:
    it leaves exactly one node, at the returned pointer minus the header
    size. *)
Theorem alloc_release_from_empty fuel s st p st1 st2 :
  HEAD st = 0 ->
  tumalloc fuel s st = Ok p st1 ->
  tufree fuel p st1 = Ok tt st2 ->
  HEAD st2 = padd p (- sizeof_header) /\ HEAD st2 <> 0
  /\ load64 (mem st2) (HEAD st2 + off_next) = 0.
Proof.
  intros H0 Ha Hf.
  pose proof (tumalloc_from_empty fuel s st p st1 H0 Ha) as H1.
  destruct (tufree_into_empty fuel p st1 st2 H1 Hf) as (Hh & Hnz & Hn & _).
  rewrite Hh. repeat split; assumption.
Qed.

(** ** What a release writes *)

Section Frame.

Variable R : list Z.
Variable m0 : Z -> Z.
Hypothesis R_range : forall n, In n R -> 0 < n < W64.
Hypothesis R_disj : forall n n', In n R -> In n' R -> n <> n' ->
  n + sizeof_free_block <= n' \/ n' + sizeof_free_block <= n.

Lemma listed_range n : listed R n -> 0 <= n < W64.
Proof.
  intros [->|Hn]; [unfold W64; lia|]. specialize (R_range n Hn). lia.
Qed.

Lemma not_in_hdr n a : In n R -> ~ in_hdr R a -> ~ (n <= a < n + sizeof_free_block).
Proof. intros Hn Ha Hc. apply Ha. exists n. split; assumption. Qed.

Lemma set_next_inv st n v u st' :
  frame_inv R m0 st -> listed R n -> listed R v ->
  set_next n v st = Ok u st' -> frame_inv R m0 st'.
Proof.
  intros (Hh & Hn & Hf) Ln Lv H.
  apply store_field_Ok in H as [Hnz ->].
  destruct Ln as [->|Ln]; [contradiction|].
  split; [exact Hh|split]; simpl.
  - intros k Hk. destruct (Z.eq_dec k n) as [->|Hne].
    + rewrite load_store64_same. unfold u64. rewrite Z.mod_small by (apply listed_range; exact Lv).
      exact Lv.
    + rewrite load64_store64_other by
        (destruct (R_disj k n Hk Ln Hne); unfold off_next, sizeof_free_block in *; lia).
      apply Hn; exact Hk.
  - intros a Ha. pose proof (not_in_hdr n a Ln Ha).
    rewrite store64_other by (unfold off_next, sizeof_free_block in *; lia).
    apply Hf; exact Ha.
Qed.

Lemma set_size_inv st n v u st' :
  frame_inv R m0 st -> listed R n ->
  set_size n v st = Ok u st' -> frame_inv R m0 st'.
Proof.
  intros (Hh & Hn & Hf) Ln H.
  apply store_field_Ok in H as [Hnz ->].
  destruct Ln as [->|Ln]; [contradiction|].
  split; [exact Hh|split]; simpl.
  - intros k Hk. destruct (Z.eq_dec k n) as [->|Hne].
    + rewrite load64_store64_other by (unfold off_next, off_size; lia).
      apply Hn; exact Hk.
    + rewrite load64_store64_other by
        (destruct (R_disj k n Hk Ln Hne); unfold off_next, off_size, sizeof_free_block in *; lia).
      apply Hn; exact Hk.
  - intros a Ha. pose proof (not_in_hdr n a Ln Ha).
    rewrite store64_other by (unfold off_size, sizeof_free_block in *; lia).
    apply Hf; exact Ha.
Qed.

Lemma get_next_inv st n v st' :
  frame_inv R m0 st -> listed R n ->
  get_next n st = Ok v st' -> st' = st /\ listed R v.
Proof.
  intros (Hh & Hn & Hf) Ln H.
  apply load_field_Ok in H as (Hnz & -> & ->).
  destruct Ln as [->|Ln]; [contradiction|].
  split; [reflexivity | apply Hn; exact Ln].
Qed.

Lemma get_size_same n st v st' : get_size n st = Ok v st' -> st' = st.
Proof. intros H. apply load_field_Ok in H as (_ & _ & ->). reflexivity. Qed.

Lemma get_HEAD_inv st h st' :
  frame_inv R m0 st -> get_HEAD st = Ok h st' -> st' = st /\ listed R h.
Proof.
  intros Hi H. apply get_HEAD_Ok in H as [-> ->]. split; [reflexivity | apply Hi].
Qed.

Lemma set_HEAD_inv st h u st' :
  frame_inv R m0 st -> listed R h -> set_HEAD h st = Ok u st' -> frame_inv R m0 st'.
Proof.
  intros (Hh & Hn & Hf) Lh H. apply set_HEAD_Ok in H as ->.
  split; [exact Lh | split; [exact Hn | exact Hf]].
Qed.

Lemma find_prev_loop_inv f b curr st r st' :
  frame_inv R m0 st -> listed R curr ->
  find_prev_loop f b curr st = Ok r st' -> st' = st /\ listed R r.
Proof.
  revert curr. induction f as [|f IH]; intros curr Hi Lc H; cbn [find_prev_loop] in H.
  - discriminate.
  - destruct (curr =? 0).
    + apply ret_Ok in H as [-> ->]. split; [reflexivity | left; reflexivity].
    + binv H. apply get_size_same in Hm as ->.
      destruct (_ =? b).
      * apply ret_Ok in H as [-> ->]. split; [reflexivity | exact Lc].
      * binv H. apply get_next_inv in Hm as [-> Ln]; [|exact Hi|exact Lc].
        apply IH in H; assumption.
Qed.

Lemma find_next_loop_inv f e curr st r st' :
  frame_inv R m0 st -> listed R curr ->
  find_next_loop f e curr st = Ok r st' -> st' = st /\ listed R r.
Proof.
  revert curr. induction f as [|f IH]; intros curr Hi Lc H; cbn [find_next_loop] in H.
  - discriminate.
  - destruct (curr =? 0); [|destruct (curr =? e)].
    + apply ret_Ok in H as [-> ->]. split; [reflexivity | left; reflexivity].
    + apply ret_Ok in H as [-> ->]. split; [reflexivity | exact Lc].
    + binv H. apply get_next_inv in Hm as [-> Ln]; [|exact Hi|exact Lc].
      apply IH in H; assumption.
Qed.

Lemma find_prev_inv f b st r st' :
  frame_inv R m0 st -> find_prev f b st = Ok r st' -> st' = st /\ listed R r.
Proof.
  intros Hi H. unfold find_prev in H.
  binv H. apply get_HEAD_inv in Hm as [-> Lh]; [|exact Hi].
  apply find_prev_loop_inv in H; assumption.
Qed.

Lemma find_next_inv f b st r st' :
  frame_inv R m0 st -> find_next f b st = Ok r st' -> st' = st /\ listed R r.
Proof.
  intros Hi H. unfold find_next in H.
  binv H. apply get_size_same in Hm as ->.
  binv H. apply get_HEAD_inv in Hm as [-> Lh]; [|exact Hi].
  apply find_next_loop_inv in H; assumption.
Qed.

Lemma insert_loop_inv f new curr cna st r st' :
  frame_inv R m0 st -> listed R curr ->
  insert_loop f new curr cna st = Ok r st' -> st' = st /\ listed R r.
Proof.
  revert curr cna. induction f as [|f IH]; intros curr cna Hi Lc H; cbn [insert_loop] in H.
  - discriminate.
  - binv H. apply get_next_inv in Hm as [-> _]; [|exact Hi|exact Lc].
    destruct (_ && _).
    + binv H. apply get_next_inv in Hm as [-> Ln]; [|exact Hi|exact Lc].
      apply IH in H; assumption.
    + apply ret_Ok in H as [-> ->]. split; [reflexivity | exact Lc].
Qed.

Lemma coalesce_inv f block st r st' :
  frame_inv R m0 st -> listed R block ->
  coalesce f block st = Ok r st' -> frame_inv R m0 st'.
Proof.
  intros Hi Lb H. unfold coalesce in H.
  destruct (block =? 0).
  { apply ret_Ok in H as [_ ->]. exact Hi. }
  binv H. apply find_prev_inv in Hm as [-> Lp]; [|exact Hi].
  binv H. apply find_next_inv in Hm as [-> Lx]; [|exact Hi].
  binv H.
  assert (Hb : frame_inv R m0 s /\ listed R a1).
  { destruct (a =? 0).
    - apply ret_Ok in Hm as [-> ->]. split; assumption.
    - binv Hm. apply get_size_same in Hm0 as ->.
      destruct (_ =? block).
      + binv Hm. apply get_size_same in Hm0 as ->.
        binv Hm. apply set_size_inv in Hm0; [|exact Hi|exact Lp].
        binv Hm. apply get_next_inv in Hm1 as [-> _]; [|exact Hm0|exact Lp].
        binv Hm. destruct (_ =? block).
        * binv Hm1. apply get_next_inv in Hm2 as [-> Lbn]; [|exact Hm0|exact Lb].
          apply set_next_inv in Hm1; [|exact Hm0|exact Lp|exact Lbn].
          apply ret_Ok in Hm as [-> ->]. split; assumption.
        * apply ret_Ok in Hm1 as [_ ->].
          apply ret_Ok in Hm as [-> ->]. split; assumption.
      + apply ret_Ok in Hm as [-> ->]. split; assumption. }
  destruct Hb as [Hi1 Lb1]. clear Hm.
  binv H.
  destruct (a0 =? 0).
  - apply ret_Ok in Hm as [_ ->]. apply ret_Ok in H as [_ ->]. exact Hi1.
  - binv Hm. apply get_size_same in Hm0 as ->.
    destruct (_ =? a0).
    + binv Hm. apply get_size_same in Hm0 as ->.
      binv Hm. apply set_size_inv in Hm0; [|exact Hi1|exact Lb1].
      binv Hm. apply get_next_inv in Hm1 as [-> Ln]; [|exact Hm0|exact Lx].
      apply set_next_inv in Hm; [|exact Hm0|exact Lb1|exact Ln].
      apply ret_Ok in H as [_ ->]. exact Hm.
    + apply ret_Ok in Hm as [_ ->]. apply ret_Ok in H as [_ ->]. exact Hi1.
Qed.

End Frame.

(** C10 (amended): let [R] be the nodes of a Free List that is closed
    ([HEAD] and every node's [next] are [NULL] or a node of [R]) and whose
    16-byte node records are pairwise disjoint and disjoint from the
    released pointer's header-sized prefix.  Then [release(p)] changes no
    byte outside that prefix and outside the records of the nodes of [R]:
    in particular every byte of [p]'s payload that does not hold a Free
    List node's record is left unchanged. *)
Theorem tufree_frame fuel p st st' R :
  let new := padd p (- sizeof_header) in
  (forall n, In n R -> 0 < n < W64) ->
  (forall n n', In n (new :: R) -> In n' (new :: R) -> n <> n' ->
     n + sizeof_free_block <= n' \/ n' + sizeof_free_block <= n) ->
  listed R (HEAD st) ->
  (forall n, In n R -> listed R (load64 (mem st) (n + off_next))) ->
  tufree fuel p st = Ok tt st' ->
  forall a, ~ (new <= a < new + sizeof_header) -> ~ in_hdr R a ->
  mem st' a = mem st a.
Proof.
  intros new Hrange Hdisj Hh Hn H a Ha1 Ha2.
  unfold tufree in H. fold new in H.
  binv H. apply store_field_Ok in Hm as [Hnz ->].
  binv H. apply store_field_Ok in Hm as [_ ->].
  set (R' := new :: R) in *.
  assert (Hr' : forall n, In n R' -> 0 < n < W64).
  { intros n [<-|Hin]; [|apply Hrange; exact Hin].
    pose proof (padd_range p (- sizeof_header)). fold new in H0. lia. }
  assert (Lw : forall n, listed R n -> listed R' n).
  { intros n [->|Hin]; [left; reflexivity | right; right; exact Hin]. }
  assert (Lnew : listed R' new) by (right; left; reflexivity).
  set (m1 := store64 (mem st) (new + off_size) sizeof_ptr).
  set (m2 := store64 m1 (new + off_next) 0).
  assert (Hi : frame_inv R' (mem st) (set_mem (set_mem st m1) m2)).
  { split; [simpl; apply Lw; exact Hh | split]; simpl.
    - intros n [<-|Hin].
      + unfold m2. rewrite load_store64_same. left; reflexivity.
      + destruct (Z.eq_dec n new) as [->|Hne].
        * unfold m2. rewrite load_store64_same. left; reflexivity.
        * assert (Hd : n + 16 <= new \/ new + 16 <= n)
            by (apply (Hdisj n new); [right; exact Hin | left; reflexivity | exact Hne]).
          unfold m2, m1.
          rewrite !load64_store64_other by (unfold off_next, off_size; lia).
          apply Lw, Hn; exact Hin.
    - intros b Hb.
      assert (~ (new <= b < new + 16))
        by (intros Hc; apply Hb; exists new; split; [left; reflexivity | exact Hc]).
      unfold m2, m1. rewrite !store64_other by (unfold off_next, off_size; lia).
      reflexivity. }
  pose proof (set_next_inv R' (mem st) Hr' Hdisj) as SN.
  pose proof (coalesce_inv R' (mem st) Hr' Hdisj) as CO.
  binv H. apply (get_HEAD_inv R' (mem st)) in Hm as [-> Lh]; [|exact Hi].
  binv H.
  assert (Hi2 : frame_inv R' (mem st) s).
  { case_if Hm.
    - apply (set_HEAD_inv R' (mem st)) in Hm; assumption.
    - binv Hm. apply (get_next_inv R' (mem st)) in Hm0 as [-> _]; [|exact Hi|exact Lh].
      case_if Hm.
      + apply SN in Hm; assumption.
      + binv Hm. apply (get_next_inv R' (mem st)) in Hm0 as [-> _]; [|exact Hi|exact Lh].
        binv Hm. apply (insert_loop_inv R' (mem st)) in Hm0 as [-> Lc]; [|exact Hi|exact Lh].
        binv Hm. apply (get_next_inv R' (mem st)) in Hm0 as [-> Lcn]; [|exact Hi|exact Lc].
        binv Hm. apply SN in Hm0; [|exact Hi|exact Lnew|exact Lcn].
        apply SN in Hm; [assumption|exact Hm0|exact Lc|exact Lnew]. }
  clear Hm.
  binv H. apply (get_next_inv R' (mem st)) in Hm as [-> _]; [|exact Hi2|exact Lnew].
  binv H.
  assert (Hi3 : frame_inv R' (mem st) s0).
  { case_if Hm.
    - apply SN in Hm; [assumption|exact Hi2|exact Lnew|left; reflexivity].
    - apply ret_Ok in Hm as [_ ->]. exact Hi2. }
  clear Hm.
  binv H. apply CO in Hm; [|exact Hi3|exact Lnew].
  apply ret_Ok in H as [_ ->].
  destruct Hm as (_ & _ & Hf). apply Hf.
  intros (n & [<-|Hin] & Hr).
  - apply Ha1. unfold sizeof_header. unfold sizeof_free_block in Hr. exact Hr.
  - apply Ha2. exists n. split; assumption.
Qed.

(** ** Witnesses: the general theorems applied to concrete runs *)

(** [tucalloc(3, 4)] on a fresh process returns 12 zero bytes. *)
Lemma tucalloc_zero_fill_witness :
  exists st', tucalloc fuel0 3 4 st0 = Ok 4352 st'
              /\ forall i, 0 <= i < 12 -> mem st' (4352 + i) = 0.
Proof.
  pose proof (tucalloc_zero_fill fuel0 3 4 st0) as H. cbv zeta in H.
  change (u64 (3 * 4)) with 12 in H.
  destruct (tumalloc fuel0 12 st0) as [p st1|e] eqn:E.
  - assert (Hp : p = 4352) by (vm_compute in E; congruence). subst p.
    apply H. discriminate.
  - vm_compute in E. discriminate.
Defined.

(** Allocating and releasing 100 bytes on a fresh process. *)
Lemma alloc_release_from_empty_witness :
  HEAD st0 = 0 /\
  exists p st1 st2,
    tumalloc fuel0 100 st0 = Ok p st1 /\ tufree fuel0 p st1 = Ok tt st2
    /\ HEAD st2 = padd p (- sizeof_header) /\ HEAD st2 <> 0
    /\ load64 (mem st2) (HEAD st2 + off_next) = 0.
Proof.
  destruct (tumalloc fuel0 100 st0) as [p st1|e] eqn:E1;
    [|vm_compute in E1; discriminate].
  destruct (tufree fuel0 p st1) as [[] st2|e] eqn:E2.
  - split; [reflexivity|]. exists p, st1, st2.
    split; [reflexivity|]. split; [exact E2|].
    apply (alloc_release_from_empty fuel0 100 st0 p st1 st2);
      [reflexivity | exact E1 | exact E2].
  - vm_compute in E1. injection E1 as <- <-. vm_compute in E2. discriminate.
Defined.

(** Releasing the second of two 100-byte blocks while the first one's node
    (at 4336) is the Free List: byte 40 of its payload is unchanged. *)
Lemma tufree_frame_witness :
  match two_blocks_run st0 with
  | Ok (_, b) st =>
      match tufree fuel0 b st with
      | Ok _ st' => mem st' (b + 40) = mem st (b + 40)
      | Crash _ => False
      end
  | Crash _ => False
  end.
Proof.
  destruct (two_blocks_run st0) as [[a b] st|e] eqn:E;
    [|vm_compute in E; discriminate].
  vm_compute in E. injection E as <- <- <-.
  match goal with |- match tufree fuel0 ?b ?st with _ => _ end =>
    destruct (tufree fuel0 b st) as [[] st'|e] eqn:E2;
      [|vm_compute in E2; discriminate];
    apply (tufree_frame fuel0 b st st' (4336 :: nil))
  end.
  - intros n [<-|[]]. unfold W64. lia.
  - vm_compute.
    intros n n' [<-|[<-|[]]] [<-|[<-|[]]] Hne; try (exfalso; apply Hne; reflexivity);
      [right | left]; discriminate.
  - right. left. reflexivity.
  - intros n [<-|[]]. left. reflexivity.
  - exact E2.
  - vm_compute. intros [_ H]. discriminate H.
  - intros (n & [<-|[]] & Hr). unfold sizeof_free_block in Hr. lia.
Defined.

(** ** The Free List operations on well-formed lists *)

Lemma path_nil_inv m h : path m h nil -> h = 0.
Proof. intros H; inversion H; reflexivity. Qed.

Lemma path_cons_inv m h n l :
  path m h (n :: l) -> h = n /\ n <> 0 /\ path m (load64 m (n + off_next)) l.
Proof. intros H; inversion H; subst; auto. Qed.

Lemma find_prev_loop_first block l : forall f curr st,
  path (mem st) curr l -> (length l < f)%nat ->
  find_prev_loop f block curr st = Ok (first_end (mem st) block l) st.
Proof.
  induction l as [|n l IH]; intros f curr st Hp Hf; destruct f as [|f]; try (simpl in Hf; lia).
  - apply path_nil_inv in Hp. subst. reflexivity.
  - apply path_cons_inv in Hp as (-> & Hn & Hp).
    cbn [find_prev_loop first_end]. unfold bind, get_size, get_next, load_field, ret.
    rewrite (proj2 (Z.eqb_neq _ _) Hn).
    destruct (node_end n _ =? block); [reflexivity|].
    apply IH; [exact Hp | simpl in Hf; lia].
Qed.

Lemma find_next_loop_first e l : forall f curr st,
  path (mem st) curr l -> (length l < f)%nat ->
  find_next_loop f e curr st = Ok (if existsb (Z.eqb e) l then e else 0) st.
Proof.
  induction l as [|n l IH]; intros f curr st Hp Hf; destruct f as [|f]; try (simpl in Hf; lia).
  - apply path_nil_inv in Hp. subst. reflexivity.
  - apply path_cons_inv in Hp as (-> & Hn & Hp).
    cbn [find_next_loop existsb]. unfold bind, get_next, load_field, ret.
    rewrite (proj2 (Z.eqb_neq _ _) Hn).
    destruct (Z.eqb_spec n e) as [->|Hne].
    + rewrite Z.eqb_refl. reflexivity.
    + rewrite (proj2 (Z.eqb_neq e n) (not_eq_sym Hne)). simpl.
      apply IH; [exact Hp | simpl in Hf; lia].
Qed.

Lemma find_prev_eq fuel block st l :
  path (mem st) (HEAD st) l -> (length l < fuel)%nat ->
  find_prev fuel block st = Ok (first_end (mem st) block l) st.
Proof. intros Hp Hf. apply find_prev_loop_first; assumption. Qed.

Lemma find_next_eq fuel block st l :
  block <> 0 -> path (mem st) (HEAD st) l -> (length l < fuel)%nat ->
  find_next fuel block st =
    Ok (let e := node_end block (load64 (mem st) (block + off_size)) in
        if existsb (Z.eqb e) l then e else 0) st.
Proof.
  intros Hb Hp Hf. unfold find_next, bind, get_size, load_field, get_HEAD.
  rewrite (proj2 (Z.eqb_neq _ _) Hb).
  apply find_next_loop_first; assumption.
Qed.

Lemma remove_loop_null l : forall f curr st,
  path (mem st) curr l -> curr <> 0 -> (length l < f)%nat ->
  remove_loop f 0 curr st = Crash Segv.
Proof.
  induction l as [|n l IH]; intros f curr st Hp Hc Hf.
  - apply path_nil_inv in Hp. contradiction.
  - apply path_cons_inv in Hp as (-> & Hn & Hp).
    destruct f as [|f]; [simpl in Hf; lia|].
    cbn [remove_loop]. unfold bind, get_next, load_field, ret.
    rewrite (proj2 (Z.eqb_neq _ _) Hn).
    destruct (Z.eqb_spec (load64 (mem st) (n + off_next)) 0) as [E|E].
    + reflexivity.
    + apply IH; [exact Hp | exact E | simpl in Hf; lia].
Qed.

(** X3 (remove_free_block on NULL): on a well-formed Free List,
    [remove_free_block(NULL)] returns normally only when the list is empty;
    otherwise it walks to the last node and dereferences [NULL]. *)
Theorem remove_free_block_null_crashes fuel st l :
  path (mem st) (HEAD st) l -> (length l < fuel)%nat ->
  remove_free_block fuel 0 st = Crash Segv.
Proof.
  intros Hp Hf. unfold remove_free_block, bind, get_HEAD.
  destruct (Z.eqb_spec (HEAD st) 0) as [E|E].
  - reflexivity.
  - apply (remove_loop_null l); assumption.
Qed.

Lemma path_frame m m' h l :
  path m h l ->
  (forall n x, In n l -> n + off_next <= x < n + off_next + 8 -> m' x = m x) ->
  path m' h l.
Proof.
  induction 1 as [|n n' l Hn Hl Hp IH]; intros Hm; [constructor|].
  constructor 2 with n'; [exact Hn| |].
  - rewrite <- Hl. unfold load64. apply load_bytes_ext.
    intros x Hx. apply (Hm n); [left; reflexivity | simpl in Hx; lia].
  - apply IH. intros k x Hk Hx. apply (Hm k); [right; exact Hk | exact Hx].
Qed.

Lemma path_head_range m h l : path m h l -> separate_nodes l -> 0 <= h < W64.
Proof.
  destruct 1 as [|n n' l Hn _ _]; simpl.
  - unfold W64; lia.
  - unfold sizeof_free_block. lia.
Qed.

Lemma last_In (l : list Z) d : l <> nil -> In (last l d) l.
Proof.
  induction l as [|x l IH]; intros H; [contradiction|].
  destruct l as [|y l]; [left; reflexivity|].
  right. apply IH. discriminate.
Qed.

Lemma separate_not_in l1 b l2 : separate_nodes (l1 ++ b :: l2) -> ~ In b l1.
Proof.
  induction l1 as [|x l1 IH]; simpl; [tauto|].
  intros (_ & _ & Hf & Hs) [->|Hi].
  - rewrite Forall_forall in Hf. specialize (Hf b (in_or_app _ _ _ (or_intror (in_eq _ _)))).
    unfold sizeof_free_block in Hf. lia.
  - exact (IH Hs Hi).
Qed.

Lemma unlink_path m l2 b : forall l1 h,
  l1 <> nil -> path m h (l1 ++ b :: l2) -> separate_nodes (l1 ++ b :: l2) ->
  path (store64 m (last l1 0 + off_next) (load64 m (b + off_next))) h (l1 ++ l2).
Proof.
  induction l1 as [|x l1 IH]; intros h Hne Hp Hs; [contradiction|].
  apply path_cons_inv in Hp as (-> & Hx & Hp).
  destruct Hs as (Hx0 & Hxw & Hf & Hs). rewrite Forall_forall in Hf.
  unfold off_next, sizeof_free_block in *.
  destruct l1 as [|y l1].
  - simpl in *. apply path_cons_inv in Hp as (Hb & Hb0 & Hp). unfold off_next in *.
    constructor 2 with (load64 m (b + 8)); [exact Hx| |].
    + rewrite load_store64_same. unfold u64. apply Z.mod_small.
      apply (path_head_range m _ l2); [exact Hp | apply (proj2 (proj2 (proj2 Hs)))].
    + apply (path_frame m); [exact Hp|].
      intros n z Hn Hz. apply store64_other.
      specialize (Hf n (in_cons _ _ _ Hn)). unfold off_next in Hz. lia.
  - assert (Hc : In (last (y :: l1) 0) (y :: l1)) by (apply last_In; discriminate).
    change (last (x :: y :: l1) 0) with (last (y :: l1) 0).
    constructor 2 with (load64 m (x + 8)); [exact Hx| |].
    + apply load64_store64_other.
      specialize (Hf _ (in_or_app _ _ _ (or_introl Hc))). lia.
    + apply IH; [discriminate | exact Hp | exact Hs].
Qed.

Lemma remove_loop_unlink b l2 : forall l1 f curr st,
  path (mem st) curr (curr :: l1 ++ b :: l2) -> ~ In b (curr :: l1) ->
  (length l1 < f)%nat ->
  remove_loop f b curr st =
    Ok tt (set_mem st (store64 (mem st) (last (curr :: l1) 0 + off_next)
                                 (load64 (mem st) (b + off_next)))).
Proof.
  induction l1 as [|y l1 IH]; intros f curr st Hp Hb Hf;
    destruct f as [|f]; try (simpl in Hf; lia);
    apply path_cons_inv in Hp as (_ & Hc & Hp);
    cbn [remove_loop]; unfold bind, get_next, load_field, ret, set_next, store_field;
    rewrite (proj2 (Z.eqb_neq _ _) Hc).
  - apply path_cons_inv in Hp as (Hb' & Hb0 & _). simpl app in Hb'. rewrite Hb'.
    rewrite Z.eqb_refl, (proj2 (Z.eqb_neq _ _) Hb0). reflexivity.
  - apply path_cons_inv in Hp as (Hy & Hy0 & Hp'). rewrite Hy.
    rewrite (proj2 (Z.eqb_neq y b)) by (intros ->; apply Hb; right; left; reflexivity).
    change (last (curr :: y :: l1) 0) with (last (y :: l1) 0).
    rewrite Hy. apply IH.
    + constructor 2 with (load64 (mem st) (y + off_next)); [exact Hy0 | reflexivity | exact Hp'].
    + intros Hi. apply Hb. right. exact Hi.
    + simpl in Hf. lia.
Qed.

(** X4 (remove_free_block unlinks): if [block] is on a well-formed Free
    List of separate nodes, [remove_free_block(block)] leaves the list with
    [block] removed and the others in order; the only bytes written are the
    [next] field of [block]'s predecessor, and when [block] is the head only
    [HEAD] changes.  The break and [NEXT] are untouched. *)
Theorem remove_free_block_unlinks fuel st l1 b l2 :
  path (mem st) (HEAD st) (l1 ++ b :: l2) -> separate_nodes (l1 ++ b :: l2) ->
  (length l1 <= fuel)%nat ->
  exists st', remove_free_block fuel b st = Ok tt st'
    /\ path (mem st') (HEAD st') (l1 ++ l2)
    /\ brk st' = brk st /\ NEXT st' = NEXT st
    /\ forall a, (l1 = nil \/ ~ (last l1 0 + off_next <= a < last l1 0 + off_next + 8)) ->
                 mem st' a = mem st a.
Proof.
  intros Hp Hs Hf. unfold remove_free_block, bind, get_HEAD.
  destruct l1 as [|x l1].
  - simpl in Hp. pose proof Hp as Hp'. apply path_cons_inv in Hp' as (Hh & Hb & Hp').
    rewrite Hh, Z.eqb_refl. unfold get_next, load_field, set_HEAD.
    rewrite (proj2 (Z.eqb_neq _ _) Hb).
    eexists; split; [reflexivity|]. simpl. auto.
  - pose proof Hp as Hp'. apply path_cons_inv in Hp' as (Hh & Hx & _).
    pose proof (separate_not_in _ _ _ Hs) as Hnb.
    rewrite Hh, (proj2 (Z.eqb_neq x b)) by (intros ->; apply Hnb; left; reflexivity).
    rewrite Hh in Hp.
    eexists; split.
    + apply (remove_loop_unlink b l2); [exact Hp | exact Hnb | simpl in Hf; lia].
    + cbn [mem HEAD brk NEXT set_mem]. rewrite Hh. split; [|split; [reflexivity | split; [reflexivity|]]].
      * apply unlink_path; [discriminate | exact Hp | exact Hs].
      * intros a [Ha|Ha]; [discriminate|]. apply store64_other. lia.
Qed.

Lemma do_alloc_eq size st :
  0 <= brk st < 2 ^ 63 -> 0 <= size < 2 ^ 62 ->
  let inc := size + (16 - brk st mod 16) in
  do_alloc size st =
    if lim st <? brk st + inc then Ok 0 st
    else Ok (brk st) (set_brk_st st (brk st + inc)).
Proof.
  intros Hb Hs inc.
  assert (Hm : 0 <= brk st mod 16 < 16) by (apply Z.mod_pos_bound; lia).
  assert (Hi : to_i64 (u64 (size + (16 - Z.land (brk st) 15))) = inc).
  { change 15 with (Z.ones 4). rewrite Z.land_ones by lia. change (2 ^ 4) with 16.
    unfold to_i64, u64, inc. rewrite Z.mod_mod by (unfold W64; lia).
    rewrite Z.mod_small by (unfold W64; lia).
    replace (_ <? 2 ^ 63) with true by (symmetry; apply Z.ltb_lt; lia). reflexivity. }
  assert (Hinc : 0 < inc) by (unfold inc; lia).
  clearbody inc.
  destruct st as [m b l h n]. cbn [brk lim mem HEAD NEXT] in *.
  unfold do_alloc, bind, sbrk, ret, set_brk_st. cbn [brk lim mem HEAD NEXT].
  rewrite Z.add_0_r.
  replace (b <? 0) with false by (symmetry; apply Z.ltb_ge; lia).
  change (0 <? 0) with false. cbn [orb andb]. cbv beta iota.
  cbn [brk lim mem HEAD NEXT]. rewrite Hi.
  replace (b + inc <? 0) with false by (symmetry; apply Z.ltb_ge; lia).
  replace (0 <? inc) with true by (symmetry; apply Z.ltb_lt; lia).
  cbn [orb andb].
  destruct (l <? b + inc).
  - rewrite Z.eqb_refl. reflexivity.
  - replace (b =? sbrk_fail) with false by (symmetry; apply Z.eqb_neq; unfold sbrk_fail, W64; lia).
    reflexivity.
Qed.


Lemma padd_small p d : 0 <= p + d < W64 -> padd p d = p + d.
Proof. intros H. unfold padd. apply Z.mod_small. exact H. Qed.

Lemma u64_small z : 0 <= z < W64 -> u64 z = z.
Proof. intros H. unfold u64. apply Z.mod_small. exact H. Qed.

(** X9 (allocate on an empty Free List): with no Free Node and room
    below the limit, [tumalloc(s)] extends the heap at the old break [b],
    writes [s] into the 8 bytes at [b] only, returns [b + 256], and leaves
    [HEAD] and [NEXT] [NULL].  The break grows by [s + 16] plus the padding
    to 16, so for [s <= 224] the returned pointer is at or past the new
    break. *)
Theorem tumalloc_empty_list_extends fuel s st :
  HEAD st = 0 -> 0 < brk st -> brk st + s + 32 <= lim st -> lim st < 2 ^ 62 ->
  0 <= s ->
  let b := brk st in
  exists st', tumalloc fuel s st = Ok (b + 256) st'
    /\ brk st' = b + s + 16 + (16 - b mod 16)
    /\ load64 (mem st') b = s
    /\ (forall a, ~ (b <= a < b + 8) -> mem st' a = mem st a)
    /\ HEAD st' = 0 /\ NEXT st' = 0
    /\ (s <= 224 -> brk st' <= b + 256).
Proof.
  intros H0 Hb Hl Hlim Hs b.
  assert (Hm : 0 <= b mod 16 < 16) by (apply Z.mod_pos_bound; lia).
  unfold tumalloc, extend_reset, bind at 1, get_HEAD. cbv beta iota. rewrite H0, Z.eqb_refl.
  unfold bind at 1.
  rewrite (u64_small (s + sizeof_header)) by (unfold sizeof_header, W64; lia).
  rewrite do_alloc_eq by (unfold sizeof_header; lia). fold b.
  replace (lim st <? b + (s + sizeof_header + (16 - b mod 16))) with false
    by (symmetry; apply Z.ltb_ge; unfold sizeof_header, b in *; lia).
  unfold bind, get_HEAD, set_NEXT, set_size, store_field, ret, hdr_payload.
  cbn [brk lim mem HEAD NEXT set_brk_st set_NEXT_st].
  rewrite H0. replace (b =? 0) with false by (symmetry; apply Z.eqb_neq; lia).
  rewrite padd_small by (unfold sizeof_header, W64; lia).
  eexists; split; [reflexivity|].
  cbn [brk lim mem HEAD NEXT set_brk_st set_NEXT_st set_mem].
  unfold sizeof_header, off_size. rewrite Z.add_0_r.
  split; [lia|]. split.
  - rewrite load_store64_same. apply u64_small. unfold W64; lia.
  - split; [|split; [exact H0 | split; [reflexivity | lia]]].
    intros a Ha. apply store64_other. lia.
Qed.


(** X11 (exact fit in a one-node list): when the Free List is one node
    whose size is exactly [s], [tumalloc(s)] returns that node itself,
    empties the list ([HEAD] and [NEXT] [NULL]) and writes no memory. *)
Theorem tumalloc_single_exact_fit fuel s st :
  HEAD st <> 0 -> load64 (mem st) (HEAD st + off_next) = 0 ->
  load64 (mem st) (HEAD st + off_size) = s ->
  tumalloc fuel s st = Ok (HEAD st) (set_NEXT_st (set_HEAD_st st 0) 0).
Proof.
  intros Hh Hn Hs.
  unfold tumalloc, bind, get_HEAD, get_next, get_size, load_field, set_HEAD, set_NEXT, ret.
  rewrite (proj2 (Z.eqb_neq _ _) Hh), Hn, Z.eqb_refl, Hs, Z.ltb_irrefl, Z.eqb_refl.
  reflexivity.
Qed.

(** X14 (turealloc composes tufree and tumalloc): a successful
    [turealloc(ptr, n)] is [tufree(ptr)] followed by a successful
    [tumalloc(n + 16)] that returned a non-null pointer; it returns [ptr],
    and the final heap is the one [tumalloc] left (the self-copies change
    nothing). *)
Theorem turealloc_frees_then_allocates fuel ptr n st q st' :
  turealloc fuel ptr n st = Ok q st' ->
  q = ptr /\
  exists st1 h st2, tufree fuel ptr st = Ok tt st1
    /\ tumalloc fuel (u64 (n + sizeof_header)) st1 = Ok h st2
    /\ h <> 0 /\ (forall a, mem st' a = mem st2 a) /\ HEAD st' = HEAD st2
    /\ NEXT st' = NEXT st2 /\ brk st' = brk st2.
Proof.
  unfold turealloc. intros H.
  binv H. destruct a.
  binv H. rename a into h.
  binv H. apply load_field_Ok in Hm1 as (Hh & -> & ->).
  binv H. apply ret_Ok in H as [-> ->].
  split; [reflexivity|]. exists s, h, s0.
  split; [exact Hm|]. split; [exact Hm0|]. split; [exact Hh|].
  destruct a.
  assert (Hc : forall k, memcpy ptr ptr k s0 = Ok tt s1 ->
                 (forall x, mem s1 x = mem s0 x) /\ HEAD s1 = HEAD s0
                 /\ NEXT s1 = NEXT s0 /\ brk s1 = brk s0).
  { intros k Hk. unfold memcpy in Hk. destruct (_ && _); [discriminate|].
    injection Hk as <-. cbn [mem HEAD NEXT brk set_mem].
    split; [|auto]. intros x. unfold memcpy_mem.
    destruct (_ && _); [|reflexivity]. f_equal. lia. }
  case_if Hm1; exact (Hc _ Hm1).
Qed.

Ltac fwd :=
  cbv beta iota delta [bind ret get_HEAD set_HEAD set_NEXT get_NEXT get_size get_next
    set_size set_next load_field store_field set_mem set_HEAD_st set_NEXT_st
    set_brk_st sizeof_free_block sizeof_header off_size off_next];
  cbn [mem brk lim HEAD NEXT].

Ltac simpl_loads :=
  rewrite ?Z.add_0_r;
  repeat first [ rewrite load_store64_same | rewrite load64_store64_other by lia ].

Lemma to_int_small z : 0 <= z < 2 ^ 31 -> to_int z = z.
Proof.
  intros H. unfold to_int. rewrite Z.mod_small by lia.
  replace (z <? 2 ^ 31) with true by (symmetry; apply Z.ltb_lt; lia). reflexivity.
Qed.

Ltac norm_step :=
  match goal with
  | |- context [?a =? ?b] =>
      first [ replace (a =? b) with true by (symmetry; apply Z.eqb_eq; lia)
            | replace (a =? b) with false by (symmetry; apply Z.eqb_neq; lia) ]
  | |- context [?a <? ?b] =>
      first [ replace (a <? b) with true by (symmetry; apply Z.ltb_lt; lia)
            | replace (a <? b) with false by (symmetry; apply Z.ltb_ge; lia) ]
  | |- context [?a <=? ?b] =>
      first [ replace (a <=? b) with true by (symmetry; apply Z.leb_le; lia)
            | replace (a <=? b) with false by (symmetry; apply Z.leb_gt; lia) ]
  | |- context [load64 (store64 ?m ?a ?v) ?b] =>
      first [ rewrite (load64_store64_other m a v b) by lia
            | replace b with a by lia; rewrite (load_store64_same m a v) ]
  | |- context [u64 ?z] => rewrite (u64_small z) by (unfold W64 in *; lia)
  | |- context [to_int ?z] => rewrite (to_int_small z) by lia
  | |- context [padd ?p ?d] => rewrite (padd_small p d) by (unfold W64 in *; lia)
  end.

Ltac norm := repeat (fwd; rewrite ?Z.add_0_r; norm_step).





Lemma existsb_eqb_false e l : ~ In e l -> existsb (Z.eqb e) l = false.
Proof.
  intros H. apply not_true_iff_false. intros Hx.
  apply existsb_exists in Hx as (x & Hx & Ex). apply Z.eqb_eq in Ex. subst. auto.
Qed.


Lemma coalesce_no_neighbour fuel block st l :
  block <> 0 -> path (mem st) (HEAD st) l -> (length l < fuel)%nat ->
  first_end (mem st) block l = 0 ->
  ~ In (node_end block (load64 (mem st) (block + off_size))) l ->
  coalesce fuel block st = Ok block st.
Proof.
  intros Hb Hp Hf He Hn. unfold coalesce.
  rewrite (proj2 (Z.eqb_neq _ _) Hb). unfold bind at 1.
  rewrite (find_prev_eq fuel block st l Hp Hf), He.
  unfold bind at 1. rewrite (find_next_eq fuel block st l Hb Hp Hf). cbv zeta.
  rewrite (existsb_eqb_false _ _ Hn). reflexivity.
Qed.

(** X5 (coalesce without neighbours): when no listed node ends at
    [block] and the address where [block] ends is not a listed node,
    [coalesce(block)] changes nothing and returns [block]. *)
Theorem coalesce_isolated_block fuel block st l :
  block <> 0 -> path (mem st) (HEAD st) l -> (length l < fuel)%nat ->
  first_end (mem st) block l = 0 ->
  ~ In (node_end block (load64 (mem st) (block + off_size))) l ->
  coalesce fuel block st = Ok block st.
Proof. apply coalesce_no_neighbour. Qed.





(** X13 (release into a one-node list): when the Free List is one node
    [h] and the released block's node [new = ptr - 16] is disjoint from it
    and not adjacent in either direction, [tufree(ptr)] makes the list
    [h], [new] (in that order, whatever the addresses), records size 8 in
    [new], keeps [h]'s size, and writes only [new]'s record and [h]'s next
    field. *)
Theorem tufree_appends_after_single_node fuel ptr st :
  let h := HEAD st in
  let new := padd ptr (- sizeof_header) in
  0 < h -> h + sizeof_free_block <= W64 -> load64 (mem st) (h + off_next) = 0 ->
  0 < new -> new + sizeof_free_block <= W64 ->
  (h + sizeof_free_block <= new \/ new + sizeof_free_block <= h) ->
  node_end h (load64 (mem st) (h + off_size)) <> new -> node_end new sizeof_ptr <> h ->
  (3 <= fuel)%nat ->
  exists st', tufree fuel ptr st = Ok tt st'
    /\ HEAD st' = h /\ path (mem st') h (h :: new :: nil)
    /\ load64 (mem st') (new + off_size) = sizeof_ptr
    /\ load64 (mem st') (h + off_size) = load64 (mem st) (h + off_size)
    /\ (forall a, ~ (new <= a < new + sizeof_free_block) -> ~ (h + off_next <= a < h + off_next + 8) ->
                  mem st' a = mem st a)
    /\ NEXT st' = NEXT st /\ brk st' = brk st.
Proof.
  cbv zeta. intros Hh Hhw Hhn Hn Hnw D Hne1 Hne2 Hf.
  unfold tufree. pose proof (padd_range ptr (- sizeof_header)) as Hr.
  set (new := padd ptr (- sizeof_header)) in *. clearbody new.
  destruct st as [m b l h n]. cbn [mem brk lim HEAD NEXT] in *.
  unfold sizeof_free_block, off_size, off_next, sizeof_ptr in *. rewrite ?Z.add_0_r in *.
  norm.
  set (m1 := store64 (store64 (store64 m new 8) (new + 8) 0) (h + 8) new).
  assert (Hp : path m1 h (h :: new :: nil)).
  { apply path_cons with new; [lia| |].
    - unfold m1, off_next. rewrite load_store64_same. apply u64_small. unfold W64 in *; lia.
    - apply path_cons with 0; [lia| |constructor].
      unfold m1, off_next. rewrite load64_store64_other by lia. rewrite load_store64_same. reflexivity. }
  assert (Hm1h : load64 m1 h = load64 m h) by (unfold m1; rewrite !load64_store64_other by lia; reflexivity).
  assert (Hm1n : load64 m1 new = 8) by (unfold m1; rewrite !load64_store64_other by lia; rewrite load_store64_same; reflexivity).
  rewrite (coalesce_no_neighbour fuel new (mkState m1 b l h n) (h :: new :: nil)); cbn [mem HEAD].
  - cbv beta iota. eexists; split; [reflexivity|]. cbn [mem brk lim HEAD NEXT].
    split; [reflexivity|]. split; [exact Hp|]. split; [exact Hm1n|]. split; [exact Hm1h|].
    split; [|auto]. intros a Ha1 Ha2. unfold m1. rewrite !store64_other by lia. reflexivity.
  - lia.
  - exact Hp.
  - cbn [length]; lia.
  - cbn [first_end]. unfold off_size. rewrite !Z.add_0_r, Hm1h, Hm1n.
    rewrite (proj2 (Z.eqb_neq _ _) Hne1).
    rewrite (proj2 (Z.eqb_neq _ _) (node_end_8_neq new ltac:(lia))). reflexivity.
  - unfold off_size. rewrite Z.add_0_r, Hm1n. cbn [In].
    pose proof (node_end_8_neq new ltac:(lia)). intuition.
Qed.

Lemma path_check_sound m l : forall h, path_check m h l = true -> path m h l.
Proof.
  induction l as [|n l IH]; intros h H; cbn [path_check] in H.
  - apply Z.eqb_eq in H. subst. constructor.
  - apply andb_prop in H as [H Hp]. apply andb_prop in H as [Hh Hn].
    apply Z.eqb_eq in Hh. subst h.
    apply (path_cons m n (load64 m (n + off_next))); [|reflexivity|apply IH; exact Hp].
    intros E. rewrite E in Hn. discriminate.
Qed.

Ltac solve_path := apply path_check_sound; vm_compute; reflexivity.

Ltac solve_len := cbn [length]; unfold fuel0; lia.

Ltac solve_num :=
  vm_compute; repeat split; first [reflexivity | discriminate | intros H; discriminate H].

Ltac solve_hyp :=
  first [ solve_num | unfold fuel0; lia | vm_compute; left; solve_num | vm_compute; right; solve_num ].

Ltac solve_separate :=
  cbn [separate_nodes app]; unfold sizeof_free_block, W64;
  repeat split; repeat (apply Forall_cons || apply Forall_nil); lia.

(** X1 (find_prev): on a well-formed Free List [l] (the walk from [HEAD]
    reaches [NULL] within the loop's bound), [find_prev(block)] returns the
    first listed node that ends exactly at [block], or [NULL] if there is
    none, and changes nothing. *)
Theorem find_prev_first_node fuel block st l :
  path (mem st) (HEAD st) l -> (length l < fuel)%nat ->
  find_prev fuel block st = Ok (first_end (mem st) block l) st.
Proof. apply find_prev_eq. Qed.

(** X2 (find_next): on a well-formed Free List [l], for a non-null
    [block], [find_next(block)] returns the address where [block] ends if
    that address is a listed node, and [NULL] otherwise; it changes
    nothing. *)
Theorem find_next_listed_node fuel block st l :
  block <> 0 -> path (mem st) (HEAD st) l -> (length l < fuel)%nat ->
  find_next fuel block st =
    Ok (let e := node_end block (load64 (mem st) (block + off_size)) in
        if existsb (Z.eqb e) l then e else 0) st.
Proof. apply find_next_eq. Qed.

(** ** Witnesses of the Free List properties *)

(** In the two-node list, the node at 4096 (8 bytes) ends at 4120. *)
Lemma find_prev_first_node_witness :
  find_prev fuel0 4120 two_node_heap
  = Ok (first_end two_node_mem 4120 (4096 :: 8192 :: nil)) two_node_heap.
Proof.
  apply (find_prev_first_node fuel0 4120 two_node_heap (4096 :: 8192 :: nil));
    [solve_path | solve_len].
Defined.

(** In the three-node list, the node at 4096 ends at the listed 4128. *)
Lemma find_next_listed_node_witness :
  find_next fuel0 4096 three_node_heap
  = Ok (let e := node_end 4096 (load64 three_node_mem (4096 + off_size)) in
        if existsb (Z.eqb e) (4096 :: 4128 :: 4160 :: nil) then e else 0) three_node_heap.
Proof.
  apply (find_next_listed_node fuel0 4096 three_node_heap (4096 :: 4128 :: 4160 :: nil));
    [discriminate | solve_path | solve_len].
Defined.

Lemma remove_free_block_null_crashes_witness :
  remove_free_block fuel0 0 two_node_heap = Crash Segv.
Proof.
  apply (remove_free_block_null_crashes fuel0 two_node_heap (4096 :: 8192 :: nil));
    [solve_path | solve_len].
Defined.

(** Removing the second node, 8192, of the two-node list. *)
Lemma remove_free_block_unlinks_witness :
  exists st', remove_free_block fuel0 8192 two_node_heap = Ok tt st'
    /\ path (mem st') (HEAD st') (4096 :: nil)
    /\ brk st' = brk two_node_heap /\ NEXT st' = NEXT two_node_heap
    /\ forall a, (4096 :: nil = nil \/ ~ (last (4096 :: nil) 0 + off_next <= a
                                         < last (4096 :: nil) 0 + off_next + 8)) ->
                 mem st' a = mem two_node_heap a.
Proof.
  apply (remove_free_block_unlinks fuel0 two_node_heap (4096 :: nil) 8192 nil);
    [solve_path | solve_separate | solve_len].
Defined.

(** Coalescing the node at 4096 of the two-node list: nothing ends at
    4096, and 4120 is not listed. *)
Lemma coalesce_isolated_block_witness :
  coalesce fuel0 4096 two_node_heap = Ok 4096 two_node_heap.
Proof.
  apply (coalesce_isolated_block fuel0 4096 two_node_heap (4096 :: 8192 :: nil));
    [discriminate | solve_path | solve_len | vm_compute; reflexivity |].
  vm_compute. intros [H|[H|[]]]; discriminate H.
Defined.




Lemma tumalloc_empty_list_extends_witness :
  exists st', tumalloc fuel0 100 st0 = Ok (4096 + 256) st'
    /\ brk st' = 4096 + 100 + 16 + (16 - 4096 mod 16)
    /\ load64 (mem st') 4096 = 100
    /\ (forall a, ~ (4096 <= a < 4096 + 8) -> mem st' a = mem st0 a)
    /\ HEAD st' = 0 /\ NEXT st' = 0
    /\ (100 <= 224 -> brk st' <= 4096 + 256).
Proof.
  apply (tumalloc_empty_list_extends fuel0 100 st0);
    [reflexivity | vm_compute; reflexivity | vm_compute; discriminate
    | vm_compute; reflexivity | discriminate].
Defined.


Lemma tumalloc_single_exact_fit_witness :
  tumalloc fuel0 100 one_node_heap
  = Ok (HEAD one_node_heap) (set_NEXT_st (set_HEAD_st one_node_heap 0) 0).
Proof.
  apply (tumalloc_single_exact_fit fuel0 100 one_node_heap);
    [discriminate | vm_compute; reflexivity | vm_compute; reflexivity].
Defined.


(** Releasing a block whose node is at 8192 into the one-node list. *)
Lemma tufree_appends_after_single_node_witness :
  exists st', tufree fuel0 8208 one_node_heap = Ok tt st'
    /\ HEAD st' = 4096 /\ path (mem st') 4096 (4096 :: 8192 :: nil)
    /\ load64 (mem st') (8192 + off_size) = sizeof_ptr
    /\ load64 (mem st') (4096 + off_size) = load64 one_node_mem (4096 + off_size)
    /\ (forall a, ~ (8192 <= a < 8192 + sizeof_free_block) ->
                  ~ (4096 + off_next <= a < 4096 + off_next + 8) ->
                  mem st' a = one_node_mem a)
    /\ NEXT st' = 4096 /\ brk st' = 16384.
Proof.
  apply (tufree_appends_after_single_node fuel0 8208 one_node_heap);
    solve_hyp.
Defined.

(** Resizing the 100-byte allocation of a fresh process to 200 bytes. *)
Lemma turealloc_frees_then_allocates_witness :
  exists q st', turealloc fuel0 4352 200 after_alloc100 = Ok q st'
    /\ q = 4352
    /\ exists st1 h st2, tufree fuel0 4352 after_alloc100 = Ok tt st1
       /\ tumalloc fuel0 (u64 (200 + sizeof_header)) st1 = Ok h st2 /\ h <> 0.
Proof.
  destruct (turealloc fuel0 4352 200 after_alloc100) as [q st'|e] eqn:E;
    [|vm_compute in E; discriminate].
  destruct (turealloc_frees_then_allocates fuel0 4352 200 after_alloc100 q st' E)
    as [Hq (st1 & h & st2 & H1 & H2 & H3 & _)].
  exists q, st'. split; [reflexivity|]. split; [exact Hq|].
  exists st1, h, st2. auto.
Defined.
